(** * The metadata DSL function of goa: [dsl.Meta] (src/dsl/meta.go)

    [Meta(name, value...)] looks at the expression currently being built
    ([eval.Current()]), switches on its dynamic type and appends the
    values under the key [name] to a metadata map: the map of the
    expression itself for eleven struct types, the map of the wrapped
    attribute for any other [expr.CompositeExpr], and reports an invalid
    use of the DSL otherwise.

    Expressions are Go pointers to structs that are mutated in place, so
    the development works over a store of nodes addressed by location:
    the context stack holds interface values (pointers to nodes, or nil
    pointers with their dynamic type), a composite node holds the location
    of its attribute, and [Meta] is a function from store and evaluation
    context to an outcome. *)

From stdpp Require Import gmap strings list fin_maps.

(** Locations of the Go heap. *)
Definition loc : Set := nat.

(** How a call ends: it returns (with the state it leaves), or the Go
    runtime panics on a nil pointer dereference. [IllFormed] is not a Go
    behaviour: it is the answer of the model on a store that no Go
    program can build (a dangling location, or an attribute location that
    holds something else than an attribute). *)
Inductive outcome (A : Type) : Type :=
  | Return (a : A)
  | NilDereference
  | IllFormed.
Arguments Return {A} a.
Arguments NilDereference {A}.
Arguments IllFormed {A}.

Definition outcome_map {A B : Type} (f : A → B) (o : outcome A) : outcome B :=
  match o with
  | Return a => Return (f a)
  | NilDereference => NilDereference
  | IllFormed => IllFormed
  end.

(** One call after another: the second runs in the state the first
    returns, and does not run when the first does not return. *)
Definition outcome_bind {A B : Type} (o : outcome A) (f : A → outcome B) : outcome B :=
  match o with
  | Return a => f a
  | NilDereference => NilDereference
  | IllFormed => IllFormed
  end.

(** ** Package expr: the expression structs [Meta] switches over *)

Module expr.

(** [type MetaExpr map[string][]string]. A Go map value is nil or a
    reference to a map; [None] is the nil map. A metadata map is owned by
    one expression and reached through its [Meta] field only, and [Meta]
    puts the reference it updated back into the field it read it from, so
    the map is kept inside the node that holds it. A slice of values is
    the list of its elements: the slices of such a map are made by
    [append] inside [Meta] and shared with nothing. *)
Definition MetaExpr : Type := option (gmap string (list string)).

(** The eleven pointer types that have a [case] of their own in the
    type switch, in the order of the switch. *)
Inductive Kind : Set :=
  | APIExpr
  | ServerExpr
  | AttributeExpr
  | ResultTypeExpr
  | MethodExpr
  | ServiceExpr
  | HTTPServiceExpr
  | HTTPEndpointExpr
  | RouteExpr
  | HTTPFileServerExpr
  | HTTPResponseExpr.

(** A struct of one of these types: its [Meta] field, and all its
    other fields, whose declarations [Meta] never reads; they are a
    parameter of the development. *)
Record StructExpr (Fields : Type) : Type := mkStruct {
  Meta : MetaExpr;
  fields : Fields
}.
Arguments mkStruct {Fields} Meta fields.
Arguments Meta {Fields} s.
Arguments fields {Fields} s.

(** What a location can hold.
    - [Struct k s]: a struct of one of the eleven types;
    - [Composite att rest]: a value of any other type that implements
      [CompositeExpr], the interface with the single method
      [Attribute() *AttributeExpr]; [att] is what that method returns,
      [None] for a nil pointer;
    - [Opaque rest]: a value of any other type.
    Several of the eleven types implement [CompositeExpr] too; the type
    switch reaches their own case first, which is why they are
    [Struct] here. *)
Inductive Node (Fields : Type) : Type :=
  | Struct (k : Kind) (s : StructExpr Fields)
  | Composite (Attribute : option loc) (rest : Fields)
  | Opaque (rest : Fields).
Arguments Struct {Fields} k s.
Arguments Composite {Fields} Attribute rest.
Arguments Opaque {Fields} rest.

(** A nil pointer held in an interface value: the value keeps its dynamic
    type, so the type switch takes the case of that type.
    - [NilStruct k]: a nil pointer of one of the eleven types;
    - [NilComposite att]: a nil pointer of any other type that implements
      [CompositeExpr]; [att] is the attribute its [Attribute()] yields on
      the nil receiver, [None] when it yields none (it returns nil, or
      panics);
    - [NilOpaque]: a nil pointer of any other type. *)
Inductive NilPointer : Set :=
  | NilStruct (k : Kind)
  | NilComposite (Attribute : option loc)
  | NilOpaque.

(** [meta[name]]: reading a key of a map, the nil slice when the key is
    missing. *)
Definition index (meta : gmap string (list string)) (name : string) : list string :=
  default [] (meta !! name).

(** The values recorded under a key of a [Meta] field; reading a nil map
    gives the nil slice as well. *)
Definition values (meta : MetaExpr) (name : string) : list string :=
  match meta with
  | None => []
  | Some m => index m name
  end.

(** The entry of a key in a [Meta] field: [None] when the map is nil or
    has no such key. *)
Definition entry (meta : MetaExpr) (name : string) : option (list string) :=
  match meta with
  | None => None
  | Some m => m !! name
  end.

End expr.

(** ** Package eval: the evaluation context *)

Module eval.

(** Modelled from the spec: the value [eval.Current()] returns, which
    is declared outside src/: the expression on top of the context
    stack, or the sentinel that stands for no context. An expression is
    an interface value: the sentinel, a pointer to a node of the heap, or
    a nil pointer with its dynamic type. *)
Inductive Expression : Set :=
  | TopExpr
  | Ref (e : loc)
  | Nil (t : expr.NilPointer).

(** Modelled from the spec: the error records of the collector, declared
    outside src/: the class of the section 7 taxonomy and the expression
    the error originates from. *)
Inductive ErrorClass : Set :=
  | IncompatibleContext
  | DuplicateDeclaration
  | UnresolvedReference
  | InvariantViolation.

Record Error : Set := mkError {
  class : ErrorClass;
  origin : Expression
}.

(** Modelled from the spec: the context stack and the error collector
    of one evaluation run, declared outside src/. The top of the stack
    is its last element, as in a Go slice that grows by [append]. *)
Record Context : Set := mkContext {
  Stack : list Expression;
  Errors : list Error
}.

(** Modelled from the spec: [eval.Current], which is outside src/:
    the top frame, or the sentinel when no context is open. *)
Definition Current (c : Context) : Expression :=
  match last (Stack c) with
  | Some e => e
  | None => TopExpr
  end.

(** Modelled from the spec: the collector's [Record], which is outside
    src/: it appends. *)
Definition Record_ (err : Error) (c : Context) : Context :=
  {| Stack := Stack c; Errors := Errors c ++ [err] |}.

(** Modelled from the spec: [eval.IncompatibleDSL], which is outside
    src/: it signals an incompatible-context definition error through
    the collector and returns. *)
Definition IncompatibleDSL (c : Context) : Context :=
  Record_ {| class := IncompatibleContext; origin := Current c |} c.

End eval.

(** ** Package dsl: [Meta] *)

Module dsl.
Section Meta.

Context {Fields : Type}.

(** The state a DSL call runs in: the Go heap of expression nodes and
    the evaluation context, whose frames are interface values: pointers
    to nodes of the heap, and nil pointers as well, since nothing in
    [Meta] keeps a nil pointer from being the current expression. *)
Record State : Type := mkState {
  heap : gmap loc (expr.Node Fields);
  context : eval.Context
}.

(** The closure [appendMeta] of [Meta]:
<<
    if meta == nil { meta = make(map[string][]string) }
    meta[name] = append(meta[name], value...)
    return meta
>> *)
Definition appendMeta (meta : expr.MetaExpr) (name : string) (value : list string)
  : expr.MetaExpr :=
  let meta : gmap string (list string) :=
    match meta with
    | None => ∅
    | Some m => m
    end in
  Some (<[name := expr.index meta name ++ value]> meta).

(** [e.Meta = m] through the pointer [e] to a struct of type [k] whose
    fields were [s]: the node at [e] gets the new [Meta] field and keeps
    the others. *)
Definition assign_Meta (e : loc) (k : expr.Kind) (s : expr.StructExpr Fields)
    (m : expr.MetaExpr) (st : State) : State :=
  {| heap := <[e := expr.Struct k (expr.mkStruct m (expr.fields s))]> (heap st);
     context := context st |}.

(** The call [eval.IncompatibleDSL()] in a state. *)
Definition incompatible (st : State) : State :=
  {| heap := heap st; context := eval.IncompatibleDSL (context st) |}.

(** [func Meta(name string, value ...string)]: the type switch on
    [eval.Current()], case by case in the order of the source. *)
Definition Meta (name : string) (value : list string) (st : State) : outcome State :=
  match eval.Current (context st) with
  | eval.Ref e =>
      match heap st !! e with
      | Some (expr.Struct expr.APIExpr s) =>
          Return (assign_Meta e expr.APIExpr s (appendMeta (expr.Meta s) name value) st)
      | Some (expr.Struct expr.ServerExpr s) =>
          Return (assign_Meta e expr.ServerExpr s (appendMeta (expr.Meta s) name value) st)
      | Some (expr.Struct expr.AttributeExpr s) =>
          Return (assign_Meta e expr.AttributeExpr s (appendMeta (expr.Meta s) name value) st)
      | Some (expr.Struct expr.ResultTypeExpr s) =>
          Return (assign_Meta e expr.ResultTypeExpr s (appendMeta (expr.Meta s) name value) st)
      | Some (expr.Struct expr.MethodExpr s) =>
          Return (assign_Meta e expr.MethodExpr s (appendMeta (expr.Meta s) name value) st)
      | Some (expr.Struct expr.ServiceExpr s) =>
          Return (assign_Meta e expr.ServiceExpr s (appendMeta (expr.Meta s) name value) st)
      | Some (expr.Struct expr.HTTPServiceExpr s) =>
          Return (assign_Meta e expr.HTTPServiceExpr s (appendMeta (expr.Meta s) name value) st)
      | Some (expr.Struct expr.HTTPEndpointExpr s) =>
          Return (assign_Meta e expr.HTTPEndpointExpr s (appendMeta (expr.Meta s) name value) st)
      | Some (expr.Struct expr.RouteExpr s) =>
          Return (assign_Meta e expr.RouteExpr s (appendMeta (expr.Meta s) name value) st)
      | Some (expr.Struct expr.HTTPFileServerExpr s) =>
          Return (assign_Meta e expr.HTTPFileServerExpr s (appendMeta (expr.Meta s) name value) st)
      | Some (expr.Struct expr.HTTPResponseExpr s) =>
          Return (assign_Meta e expr.HTTPResponseExpr s (appendMeta (expr.Meta s) name value) st)
      | Some (expr.Composite Attribute _) =>
          (* att := e.Attribute(); att.Meta = appendMeta(att.Meta, ...) *)
          match Attribute with
          | None => NilDereference
          | Some att =>
              match heap st !! att with
              | Some (expr.Struct expr.AttributeExpr s) =>
                  Return (assign_Meta att expr.AttributeExpr s
                            (appendMeta (expr.Meta s) name value) st)
              | _ => IllFormed
              end
          end
      | Some (expr.Opaque _) => Return (incompatible st)
      | None => IllFormed
      end
  | eval.Nil (expr.NilStruct _) =>
      (* the case of the type of e is taken, and e.Meta dereferences e *)
      NilDereference
  | eval.Nil (expr.NilComposite Attribute) =>
      match Attribute with
      | None => NilDereference
      | Some att =>
          match heap st !! att with
          | Some (expr.Struct expr.AttributeExpr s) =>
              Return (assign_Meta att expr.AttributeExpr s
                        (appendMeta (expr.Meta s) name value) st)
          | _ => IllFormed
          end
      end
  | eval.Nil expr.NilOpaque => Return (incompatible st)
  | eval.TopExpr => Return (incompatible st)
  end.

(** *** Well-formed states

    What Go's type system and memory safety guarantee about a store: a
    pointer that is not nil points to a node, whether it is a frame of
    the context stack or what a composite expression returns, and in the
    second case the node is an [AttributeExpr]. A frame may be a nil
    pointer. *)

Definition allocated (h : gmap loc (expr.Node Fields)) (e : loc) : bool :=
  match h !! e with
  | Some _ => true
  | None => false
  end.

Definition is_attribute (h : gmap loc (expr.Node Fields)) (att : loc) : bool :=
  match h !! att with
  | Some (expr.Struct expr.AttributeExpr _) => true
  | _ => false
  end.

Definition well_typed (h : gmap loc (expr.Node Fields)) (n : expr.Node Fields) : bool :=
  match n with
  | expr.Composite (Some att) _ => is_attribute h att
  | _ => true
  end.

Definition well_typed_frame (h : gmap loc (expr.Node Fields)) (x : eval.Expression)
  : bool :=
  match x with
  | eval.Ref e => allocated h e
  | eval.Nil (expr.NilComposite (Some att)) => is_attribute h att
  | _ => true
  end.

Definition well_formed (st : State) : Prop :=
  Forall (λ x, well_typed_frame (heap st) x) (eval.Stack (context st))
  ∧ map_Forall (λ _ n, well_typed (heap st) n) (heap st).

#[global] Instance well_formed_dec (st : State) : Decision (well_formed st) := _.

(** The precondition of the [CompositeExpr] case: when the current
    expression is a composite, its [Attribute()] yields an attribute. *)
Definition attribute_not_nil (st : State) : bool :=
  match eval.Current (context st) with
  | eval.Ref e =>
      match heap st !! e with
      | Some (expr.Composite None _) => false
      | _ => true
      end
  | eval.Nil (expr.NilComposite None) => false
  | _ => true
  end.

(** The precondition of the eleven struct cases: the current expression
    is not a nil pointer of one of their types. *)
Definition pointer_not_nil (st : State) : bool :=
  match eval.Current (context st) with
  | eval.Nil (expr.NilStruct _) => false
  | _ => true
  end.

(** The expression whose metadata map a call writes: the current
    expression itself in the eleven struct cases, the attribute of the
    current expression in the [CompositeExpr] case, none in the default
    case. *)
Definition receiver (st : State) : option loc :=
  match eval.Current (context st) with
  | eval.Ref e =>
      match heap st !! e with
      | Some (expr.Struct _ _) => Some e
      | Some (expr.Composite Attribute _) => Attribute
      | _ => None
      end
  | eval.Nil (expr.NilComposite Attribute) => Attribute
  | _ => None
  end.

(** *** Renaming the keys of a state

    [rename f] applies [f] to every key of every metadata map of a state
    and changes nothing else. It is used to say that [Meta] does not look
    into its key. *)

Definition rename_meta (f : string → string) (meta : expr.MetaExpr) : expr.MetaExpr :=
  match meta with
  | None => None
  | Some m => Some (kmap (M2 := gmap string) f m)
  end.

Definition rename_node (f : string → string) (n : expr.Node Fields) : expr.Node Fields :=
  match n with
  | expr.Struct k s =>
      expr.Struct k (expr.mkStruct (rename_meta f (expr.Meta s)) (expr.fields s))
  | expr.Composite att rest => expr.Composite att rest
  | expr.Opaque rest => expr.Opaque rest
  end.

Definition rename (f : string → string) (st : State) : State :=
  {| heap := rename_node f <$> heap st; context := context st |}.

(** The renaming that exchanges two keys. *)
Definition swap (k1 k2 : string) (k : string) : string :=
  if decide (k = k1) then k2 else if decide (k = k2) then k1 else k.

(** The [Meta] field found at a location, nil when the location holds no
    struct with such a field. *)
Definition meta_at (st : State) (e : loc) : expr.MetaExpr :=
  match heap st !! e with
  | Some (expr.Struct _ s) => expr.Meta s
  | _ => None
  end.

(** *** Blocks of calls

    What the type switch finds before anything is written: the struct a
    call writes, with its location and type, when there is one; no struct
    in the default case; and the outcomes of [Meta] that are not a
    return. [Meta] is this, followed by the assignment or by
    [IncompatibleDSL]. *)
Definition target (st : State)
  : outcome (option (loc * expr.Kind * expr.StructExpr Fields)) :=
  match eval.Current (context st) with
  | eval.Ref e =>
      match heap st !! e with
      | Some (expr.Struct k s) => Return (Some (e, k, s))
      | Some (expr.Composite None _) => NilDereference
      | Some (expr.Composite (Some att) _) =>
          match heap st !! att with
          | Some (expr.Struct expr.AttributeExpr s) =>
              Return (Some (att, expr.AttributeExpr, s))
          | _ => IllFormed
          end
      | Some (expr.Opaque _) => Return None
      | None => IllFormed
      end
  | eval.Nil (expr.NilStruct _) => NilDereference
  | eval.Nil (expr.NilComposite None) => NilDereference
  | eval.Nil (expr.NilComposite (Some att)) =>
      match heap st !! att with
      | Some (expr.Struct expr.AttributeExpr s) =>
          Return (Some (att, expr.AttributeExpr, s))
      | _ => IllFormed
      end
  | eval.Nil expr.NilOpaque => Return None
  | eval.TopExpr => Return None
  end.

(** The body of a block that is a sequence of [Meta] calls, as in the
    examples of the documentation of [Meta]
<<
    Meta("struct:tag:json", "SSN,omitempty")
    Meta("struct:tag:xml", "SSN,omitempty")
>>
    Each call runs in the state the call before it returns; a panic ends
    the block. *)
Fixpoint Meta_calls (calls : list (string * list string)) (st : State) : outcome State :=
  match calls with
  | [] => Return st
  | (name, value) :: calls => outcome_bind (Meta name value st) (Meta_calls calls)
  end.

End Meta.
Arguments State Fields : clear implicits.

(** The expression kinds the data model of the specification names (API,
    Server, Service, Method, Route, FileServer, Response, ResultType and
    the generic Attribute), as the Go types of the switch. *)
Definition data_model_kinds : list expr.Kind :=
  [ expr.APIExpr; expr.ServerExpr; expr.ServiceExpr; expr.MethodExpr;
    expr.RouteExpr; expr.HTTPFileServerExpr; expr.HTTPResponseExpr;
    expr.ResultTypeExpr; expr.AttributeExpr ].

End dsl.

(** ** A small design, for concrete runs

    The frames of a block are pointers to nodes.
    A service "calc" that already has ["a"] under the key "k", its method
    "add", a composite expression "wrapper" that wraps the attribute at
    location 4, a view (an expression with neither a metadata map nor an
    attribute) and a composite whose [Attribute()] is nil. The other
    fields of a node are reduced to its name. *)

Module design.

Definition nodes : gmap loc (expr.Node string) :=
  {[ 1 := expr.Struct expr.ServiceExpr (expr.mkStruct (Some {[ "k" := ["a"] ]}) "calc");
     2 := expr.Struct expr.MethodExpr (expr.mkStruct None "add");
     3 := expr.Composite (Some 4) "wrapper";
     4 := expr.Struct expr.AttributeExpr (expr.mkStruct None "a");
     5 := expr.Opaque "view";
     6 := expr.Composite None "nothing" ]}.

Definition block (stack : list loc) : dsl.State string :=
  {| dsl.heap := nodes;
     dsl.context := {| eval.Stack := eval.Ref <$> stack; eval.Errors := [] |} |}.

Definition top_level : dsl.State string := block [].
Definition in_service : dsl.State string := block [1].
Definition in_method : dsl.State string := block [1; 2].
Definition in_wrapper : dsl.State string := block [1; 2; 3].
Definition in_view : dsl.State string := block [1; 5].
Definition in_nothing : dsl.State string := block [6].

(** The block of an API expression that is a nil pointer. *)
Definition in_nil_api : dsl.State string :=
  {| dsl.heap := nodes;
     dsl.context := {| eval.Stack := [eval.Nil (expr.NilStruct expr.APIExpr)];
                       eval.Errors := [] |} |}.

End design.

(** * Properties of [Meta] *)

Section MetaFacts.

Context {Fields : Type}.
Implicit Types (st : dsl.State Fields) (s : expr.StructExpr Fields).
Implicit Types (name : string) (value : list string) (e att : loc).
Implicit Types (meta : expr.MetaExpr) (k : expr.Kind).

(** ** The closure [appendMeta] *)

Lemma appendMeta_values meta name value :
  expr.values (dsl.appendMeta meta name value) name = expr.values meta name ++ value.
Proof.
  unfold dsl.appendMeta, expr.values, expr.index.
  rewrite lookup_insert_eq. by destruct meta.
Qed.

Lemma appendMeta_entry meta name value :
  expr.entry (dsl.appendMeta meta name value) name = Some (expr.values meta name ++ value).
Proof.
  unfold dsl.appendMeta, expr.entry, expr.values.
  rewrite lookup_insert_eq. by destruct meta.
Qed.

Lemma appendMeta_entry_ne meta name name' value :
  name ≠ name' →
  expr.entry (dsl.appendMeta meta name value) name' = expr.entry meta name'.
Proof.
  intros Hne. unfold dsl.appendMeta, expr.entry.
  rewrite lookup_insert_ne by done. by destruct meta.
Qed.

Lemma appendMeta_nil name value :
  dsl.appendMeta None name value = Some {[ name := value ]}.
Proof.
  unfold dsl.appendMeta, expr.index. by rewrite lookup_empty, insert_empty.
Qed.

Lemma appendMeta_is_Some meta name value :
  is_Some (dsl.appendMeta meta name value).
Proof. by eexists. Qed.

(** ** The type switch, branch by branch *)

Lemma Current_top (c : eval.Context) :
  eval.Stack c = [] → eval.Current c = eval.TopExpr.
Proof. unfold eval.Current. by intros ->. Qed.

Lemma Meta_struct name value st e k s :
  eval.Current (dsl.context st) = eval.Ref e →
  dsl.heap st !! e = Some (expr.Struct k s) →
  dsl.Meta name value st
  = Return (dsl.assign_Meta e k s (dsl.appendMeta (expr.Meta s) name value) st).
Proof. unfold dsl.Meta. intros -> ->. by destruct k. Qed.

Lemma Meta_composite name value st e att rest s :
  eval.Current (dsl.context st) = eval.Ref e →
  dsl.heap st !! e = Some (expr.Composite (Some att) rest) →
  dsl.heap st !! att = Some (expr.Struct expr.AttributeExpr s) →
  dsl.Meta name value st
  = Return (dsl.assign_Meta att expr.AttributeExpr s
              (dsl.appendMeta (expr.Meta s) name value) st).
Proof. unfold dsl.Meta. by intros -> -> ->. Qed.

Lemma Meta_composite_nil name value st e rest :
  eval.Current (dsl.context st) = eval.Ref e →
  dsl.heap st !! e = Some (expr.Composite None rest) →
  dsl.Meta name value st = NilDereference.
Proof. unfold dsl.Meta. by intros -> ->. Qed.

Lemma Meta_opaque name value st e rest :
  eval.Current (dsl.context st) = eval.Ref e →
  dsl.heap st !! e = Some (expr.Opaque rest) →
  dsl.Meta name value st = Return (dsl.incompatible st).
Proof. unfold dsl.Meta. by intros -> ->. Qed.

Lemma Meta_top name value st :
  eval.Current (dsl.context st) = eval.TopExpr →
  dsl.Meta name value st = Return (dsl.incompatible st).
Proof. unfold dsl.Meta. by intros ->. Qed.

(** What the assignment through a pointer leaves behind. *)

Lemma assign_Meta_lookup e k s meta st :
  dsl.heap (dsl.assign_Meta e k s meta st) !! e
  = Some (expr.Struct k (expr.mkStruct meta (expr.fields s))).
Proof. unfold dsl.assign_Meta; simpl. apply lookup_insert_eq. Qed.

Lemma assign_Meta_lookup_ne e e' k s meta st :
  e' ≠ e →
  dsl.heap (dsl.assign_Meta e k s meta st) !! e' = dsl.heap st !! e'.
Proof. intros Hne. unfold dsl.assign_Meta; simpl. by apply lookup_insert_ne. Qed.

Lemma assign_Meta_context e k s meta st :
  dsl.context (dsl.assign_Meta e k s meta st) = dsl.context st.
Proof. reflexivity. Qed.

(** ** The receiver of a call *)

Lemma well_formed_frame st :
  dsl.well_formed st →
  dsl.well_typed_frame (dsl.heap st) (eval.Current (dsl.context st)).
Proof.
  intros [Hstack _]. unfold eval.Current.
  destruct (last (eval.Stack (dsl.context st))) as [x|] eqn:Hlast; [|done].
  apply last_Some_elem_of in Hlast.
  rewrite Forall_forall in Hstack. by apply Hstack.
Qed.

Lemma well_formed_current st e :
  dsl.well_formed st →
  eval.Current (dsl.context st) = eval.Ref e →
  is_Some (dsl.heap st !! e).
Proof.
  intros Hwf Hcur. pose proof (well_formed_frame st Hwf) as Hframe.
  rewrite Hcur in Hframe. simpl in Hframe.
  unfold dsl.allocated in Hframe. by destruct (dsl.heap st !! e).
Qed.

Lemma is_attribute_lookup (h : gmap loc (expr.Node Fields)) att :
  dsl.is_attribute h att →
  ∃ s, h !! att = Some (expr.Struct expr.AttributeExpr s).
Proof.
  unfold dsl.is_attribute.
  destruct (h !! att) as [[[] s| |]|]; try done. by exists s.
Qed.

Lemma well_formed_nil_attribute st att :
  dsl.well_formed st →
  eval.Current (dsl.context st) = eval.Nil (expr.NilComposite (Some att)) →
  ∃ s, dsl.heap st !! att = Some (expr.Struct expr.AttributeExpr s).
Proof.
  intros Hwf Hcur. pose proof (well_formed_frame st Hwf) as Hframe.
  rewrite Hcur in Hframe. by apply is_attribute_lookup.
Qed.

Lemma well_formed_attribute st e att rest :
  dsl.well_formed st →
  dsl.heap st !! e = Some (expr.Composite (Some att) rest) →
  ∃ s, dsl.heap st !! att = Some (expr.Struct expr.AttributeExpr s).
Proof.
  intros [_ Hheap] He. specialize (Hheap _ _ He). simpl in Hheap.
  unfold dsl.is_attribute in Hheap.
  destruct (dsl.heap st !! att) as [[[] s| |]|]; try done. by exists s.
Qed.

Lemma Meta_receiver name value st r :
  dsl.well_formed st →
  dsl.receiver st = Some r →
  ∃ k s,
    dsl.heap st !! r = Some (expr.Struct k s)
    ∧ dsl.Meta name value st
      = Return (dsl.assign_Meta r k s (dsl.appendMeta (expr.Meta s) name value) st).
Proof.
  intros Hwf. unfold dsl.receiver.
  destruct (eval.Current (dsl.context st)) as [|e|[k|att|]] eqn:Hcur; try done.
  - destruct (dsl.heap st !! e) as [[k s|att rest|rest]|] eqn:He; try done.
    + intros [= <-]. exists k, s. split; [done|]. by apply Meta_struct.
    + intros ->. destruct (well_formed_attribute _ _ _ _ Hwf He) as [s Hs].
      exists expr.AttributeExpr, s. split; [done|]. by eapply Meta_composite.
  - intros ->. destruct (well_formed_nil_attribute _ _ Hwf Hcur) as [s Hs].
    exists expr.AttributeExpr, s. split; [done|].
    unfold dsl.Meta. by rewrite Hcur, Hs.
Qed.

Lemma entry_values meta name (vs : list string) :
  expr.entry meta name = Some vs → expr.values meta name = vs.
Proof.
  unfold expr.entry, expr.values, expr.index.
  destruct meta as [m|]; [|done]. by intros ->.
Qed.

Lemma entry_None_values meta name :
  expr.entry meta name = None → expr.values meta name = [].
Proof.
  unfold expr.entry, expr.values, expr.index.
  destruct meta as [m|]; [|done]. by intros ->.
Qed.

Lemma receiver_assign_Meta st r k s meta :
  dsl.heap st !! r = Some (expr.Struct k s) →
  dsl.receiver (dsl.assign_Meta r k s meta st) = dsl.receiver st.
Proof.
  intros Hs. unfold dsl.receiver. rewrite assign_Meta_context.
  destruct (eval.Current (dsl.context st)) as [|e|t]; [done| |done].
  destruct (decide (e = r)) as [->|Hne].
  - by rewrite assign_Meta_lookup, Hs.
  - by rewrite assign_Meta_lookup_ne.
Qed.

(** [Meta] keeps a state well formed. *)
Lemma Meta_well_formed name value st st' :
  dsl.well_formed st →
  dsl.Meta name value st = Return st' →
  dsl.well_formed st'.
Proof.
  intros Hwf HMeta.
  destruct (dsl.receiver st) as [r|] eqn:Hr.
  - destruct (Meta_receiver name value st r Hwf Hr) as (k & s & Hs & HMeta').
    rewrite HMeta' in HMeta. injection HMeta as <-.
    destruct Hwf as [Hstack Hheap].
    assert (Hkeep : ∀ att, dsl.is_attribute (dsl.heap st) att →
      dsl.is_attribute (dsl.heap (dsl.assign_Meta r k s
        (dsl.appendMeta (expr.Meta s) name value) st)) att).
    { intros att. unfold dsl.is_attribute.
      destruct (decide (att = r)) as [->|Hne].
      - rewrite assign_Meta_lookup, Hs. by destruct k.
      - by rewrite assign_Meta_lookup_ne. }
    split.
    + rewrite assign_Meta_context. eapply Forall_impl; [exact Hstack|].
      intros [|e|[k'|[att|]|]]; cbn [dsl.well_typed_frame]; try done;
        [|by apply Hkeep].
      unfold dsl.allocated.
      destruct (decide (e = r)) as [->|Hne].
      * by rewrite assign_Meta_lookup.
      * by rewrite assign_Meta_lookup_ne.
    + intros e n. destruct (decide (e = r)) as [->|Hne].
      * rewrite assign_Meta_lookup. by intros [= <-].
      * rewrite assign_Meta_lookup_ne by done. intros He.
        specialize (Hheap _ _ He). simpl in Hheap.
        destruct n as [|[att|]|]; try done. by apply Hkeep.
  - assert (st' = dsl.incompatible st) as ->; [|exact Hwf].
    revert HMeta Hr. unfold dsl.Meta, dsl.receiver.
    destruct (eval.Current (dsl.context st)) as [|e|[k|[att|]|]];
      try done; try congruence.
    destruct (dsl.heap st !! e) as [[k s|[att|] rest|rest]|]; try done.
    congruence.
Qed.

(** ** Appending *)

(** C1. Two successive [Meta] calls with the same key on the same
    expression, the receiver, which carries a metadata map: both return,
    the receiver of the second call is the receiver of the first, and
    after each call the values under the key are the values that were
    there before followed by the values of the call, so that after both
    the key holds the old values, then the values of the first call, then
    those of the second. *)
Theorem Meta_twice_appends name (v1 v2 : list string) st r :
  dsl.well_formed st →
  dsl.receiver st = Some r →
  ∃ k s st1 s1 st2 s2,
    dsl.heap st !! r = Some (expr.Struct k s)
    ∧ dsl.Meta name v1 st = Return st1
    ∧ dsl.receiver st1 = Some r
    ∧ dsl.heap st1 !! r = Some (expr.Struct k s1)
    ∧ expr.entry (expr.Meta s1) name = Some (expr.values (expr.Meta s) name ++ v1)
    ∧ dsl.Meta name v2 st1 = Return st2
    ∧ dsl.receiver st2 = Some r
    ∧ dsl.heap st2 !! r = Some (expr.Struct k s2)
    ∧ expr.values (expr.Meta s2) name = expr.values (expr.Meta s1) name ++ v2
    ∧ expr.entry (expr.Meta s2) name
      = Some (expr.values (expr.Meta s) name ++ v1 ++ v2).
Proof.
  intros Hwf Hr.
  destruct (Meta_receiver name v1 st r Hwf Hr) as (k & s & Hs & HMeta1).
  set (m1 := dsl.appendMeta (expr.Meta s) name v1) in *.
  set (s1 := expr.mkStruct m1 (expr.fields s)).
  set (st1 := dsl.assign_Meta r k s m1 st) in *.
  assert (Hs1 : dsl.heap st1 !! r = Some (expr.Struct k s1))
    by apply assign_Meta_lookup.
  assert (Hr1 : dsl.receiver st1 = Some r)
    by (unfold st1; by rewrite receiver_assign_Meta).
  pose proof (Meta_well_formed name v1 st st1 Hwf HMeta1) as Hwf1.
  destruct (Meta_receiver name v2 st1 r Hwf1 Hr1) as (k' & s1' & Hs1' & HMeta2).
  rewrite Hs1 in Hs1'. injection Hs1' as <- <-.
  set (m2 := dsl.appendMeta (expr.Meta s1) name v2) in *.
  exists k, s, st1, s1, (dsl.assign_Meta r k s1 m2 st1), (expr.mkStruct m2 (expr.fields s1)).
  split_and!; try done.
  - apply appendMeta_entry.
  - by rewrite receiver_assign_Meta.
  - apply assign_Meta_lookup.
  - apply appendMeta_values.
  - cbn [expr.Meta]. unfold m2, s1, m1. cbn [expr.Meta].
    by rewrite appendMeta_entry, appendMeta_values, (assoc_L (++)).
Qed.

(** ** Dispatch *)

(** C2. When the current expression is a composite, one that only carries
    an attribute, the call returns and writes the metadata map of that
    attribute: the values are appended there under the key. The wrapper
    node is the same after the call as before, no node is created, no
    node but the attribute changes, and no error is recorded. *)
Theorem Meta_composite_delegates name value st e att rest s :
  eval.Current (dsl.context st) = eval.Ref e →
  dsl.heap st !! e = Some (expr.Composite (Some att) rest) →
  dsl.heap st !! att = Some (expr.Struct expr.AttributeExpr s) →
  ∃ st' s',
    dsl.Meta name value st = Return st'
    ∧ dsl.heap st' !! att = Some (expr.Struct expr.AttributeExpr s')
    ∧ expr.Meta s' = dsl.appendMeta (expr.Meta s) name value
    ∧ expr.entry (expr.Meta s') name = Some (expr.values (expr.Meta s) name ++ value)
    ∧ expr.fields s' = expr.fields s
    ∧ dsl.heap st' !! e = Some (expr.Composite (Some att) rest)
    ∧ (∀ e', e' ≠ att → dsl.heap st' !! e' = dsl.heap st !! e')
    ∧ dom (dsl.heap st') = dom (dsl.heap st)
    ∧ dsl.context st' = dsl.context st.
Proof.
  intros Hcur He Hatt.
  eexists _, (expr.mkStruct _ (expr.fields s)).
  split; [by eapply Meta_composite|].
  split_and!.
  - apply assign_Meta_lookup.
  - done.
  - apply appendMeta_entry.
  - done.
  - rewrite assign_Meta_lookup_ne; [done|]. intros ->. congruence.
  - intros e' Hne. by apply assign_Meta_lookup_ne.
  - unfold dsl.assign_Meta; simpl. rewrite dom_insert_L.
    apply subseteq_union_1_L, singleton_subseteq_l.
    by apply elem_of_dom_2 with (expr.Struct expr.AttributeExpr s).
  - done.
Qed.

(** C3. When the current expression is of a type that has no case of its
    own and is not a composite, the call returns (it does not panic), the
    heap of expressions is the same after the call, the context stack is
    the same, and the collector has one more error, appended last: an
    incompatible-context error that originates from the current
    expression. *)
Theorem Meta_incompatible_kind name value st e rest :
  eval.Current (dsl.context st) = eval.Ref e →
  dsl.heap st !! e = Some (expr.Opaque rest) →
  ∃ st',
    dsl.Meta name value st = Return st'
    ∧ dsl.heap st' = dsl.heap st
    ∧ eval.Stack (dsl.context st') = eval.Stack (dsl.context st)
    ∧ eval.Errors (dsl.context st')
      = eval.Errors (dsl.context st)
        ++ [ {| eval.class := eval.IncompatibleContext; eval.origin := eval.Ref e |} ].
Proof.
  intros Hcur He. exists (dsl.incompatible st).
  split; [by eapply Meta_opaque|].
  split_and!; try done.
  unfold dsl.incompatible, eval.IncompatibleDSL, eval.Record_; simpl.
  by rewrite Hcur.
Qed.

(** C4. With an expression of any of the kinds the data model names as
    the current context (API, Server, Service, Method, Route, FileServer,
    Response, ResultType, Attribute), the call returns, the values are
    appended under the key in the metadata map of that same expression,
    whose kind and other fields stay, and the evaluation context, with
    its errors, is the same after the call. *)
Theorem Meta_data_model_kinds name value st e k s :
  k ∈ dsl.data_model_kinds →
  eval.Current (dsl.context st) = eval.Ref e →
  dsl.heap st !! e = Some (expr.Struct k s) →
  ∃ st' s',
    dsl.Meta name value st = Return st'
    ∧ dsl.heap st' !! e = Some (expr.Struct k s')
    ∧ expr.Meta s' = dsl.appendMeta (expr.Meta s) name value
    ∧ expr.entry (expr.Meta s') name = Some (expr.values (expr.Meta s) name ++ value)
    ∧ expr.fields s' = expr.fields s
    ∧ eval.Errors (dsl.context st') = eval.Errors (dsl.context st)
    ∧ dsl.context st' = dsl.context st.
Proof.
  intros _ Hcur He.
  eexists _, (expr.mkStruct _ (expr.fields s)).
  split; [by eapply Meta_struct|].
  split_and!; try done.
  - apply assign_Meta_lookup.
  - apply appendMeta_entry.
Qed.

(** C5. When the current expression carries a metadata map and that map
    is nil, the call returns and the expression has a map afterwards,
    which holds the key of the call with the values of the call, in
    order, and nothing else. *)
Theorem Meta_creates_map name value st e k s :
  eval.Current (dsl.context st) = eval.Ref e →
  dsl.heap st !! e = Some (expr.Struct k s) →
  expr.Meta s = None →
  ∃ st',
    dsl.Meta name value st = Return st'
    ∧ dsl.heap st' !! e
      = Some (expr.Struct k (expr.mkStruct (Some {[ name := value ]}) (expr.fields s))).
Proof.
  intros Hcur He Hnil. eexists. split; [by eapply Meta_struct|].
  by rewrite assign_Meta_lookup, Hnil, appendMeta_nil.
Qed.

(** C6. When no context is open (the stack is empty), [Current] is the
    sentinel and the call returns with the same heap of expressions (none
    is created, none is changed), the same empty stack, and one more
    error in the collector, appended last: an incompatible-context error
    that originates from the sentinel. *)
Theorem Meta_outside_any_context name value st :
  eval.Stack (dsl.context st) = [] →
  eval.Current (dsl.context st) = eval.TopExpr
  ∧ ∃ st',
      dsl.Meta name value st = Return st'
      ∧ dsl.heap st' = dsl.heap st
      ∧ eval.Stack (dsl.context st') = []
      ∧ eval.Errors (dsl.context st')
        = eval.Errors (dsl.context st)
          ++ [ {| eval.class := eval.IncompatibleContext; eval.origin := eval.TopExpr |} ].
Proof.
  intros Hstack. pose proof (Current_top _ Hstack) as Hcur.
  split; [done|]. exists (dsl.incompatible st).
  split; [by apply Meta_top|].
  split_and!; try done.
  unfold dsl.incompatible, eval.IncompatibleDSL, eval.Record_; simpl.
  by rewrite Hcur.
Qed.

(** ** Frame *)

(** C8. In every context where the call has a receiver (the current
    expression for the eleven struct types, its attribute for a
    composite), the call returns and the receiver keeps its kind, its
    other fields and the entry of every key other than the key of the
    call; every other node of the heap, which for a composite includes
    the current expression, is the same after the call, and so is the
    evaluation context. *)
Theorem Meta_frame name value st r :
  dsl.well_formed st →
  dsl.receiver st = Some r →
  ∃ k s s' st',
    dsl.heap st !! r = Some (expr.Struct k s)
    ∧ dsl.Meta name value st = Return st'
    ∧ dsl.heap st' !! r = Some (expr.Struct k s')
    ∧ (∀ name', name' ≠ name →
         expr.entry (expr.Meta s') name' = expr.entry (expr.Meta s) name')
    ∧ expr.fields s' = expr.fields s
    ∧ (∀ e', e' ≠ r → dsl.heap st' !! e' = dsl.heap st !! e')
    ∧ dsl.context st' = dsl.context st.
Proof.
  intros Hwf Hr.
  destruct (Meta_receiver name value st r Hwf Hr) as (k & s & Hs & HMeta).
  exists k, s, (expr.mkStruct (dsl.appendMeta (expr.Meta s) name value) (expr.fields s)).
  eexists. split; [done|]. split; [exact HMeta|].
  split_and!; try done.
  - apply assign_Meta_lookup.
  - intros name' Hne. by apply appendMeta_entry_ne.
  - intros e' Hne. by apply assign_Meta_lookup_ne.
Qed.

(** ** No values *)

(** C9. In every context where the call has a receiver, a call with a
    key and no value returns and records no error; the values under the
    key are the same after the call as before. A key that had an entry
    keeps it, a key that had none gets the empty sequence, and a
    receiver whose map was nil gets a map that holds the key, with the
    empty sequence, and nothing else. *)
Theorem Meta_no_values name st r :
  dsl.well_formed st →
  dsl.receiver st = Some r →
  ∃ k s s' st',
    dsl.heap st !! r = Some (expr.Struct k s)
    ∧ dsl.Meta name [] st = Return st'
    ∧ dsl.heap st' !! r = Some (expr.Struct k s')
    ∧ dsl.context st' = dsl.context st
    ∧ expr.values (expr.Meta s') name = expr.values (expr.Meta s) name
    ∧ (∀ vs, expr.entry (expr.Meta s) name = Some vs →
             expr.entry (expr.Meta s') name = Some vs)
    ∧ (expr.entry (expr.Meta s) name = None →
       expr.entry (expr.Meta s') name = Some [])
    ∧ (expr.Meta s = None → expr.Meta s' = Some {[ name := [] ]}).
Proof.
  intros Hwf Hr.
  destruct (Meta_receiver name [] st r Hwf Hr) as (k & s & Hs & HMeta).
  exists k, s, (expr.mkStruct (dsl.appendMeta (expr.Meta s) name []) (expr.fields s)).
  eexists. split; [done|]. split; [exact HMeta|].
  split_and!; try done; cbn [expr.Meta].
  - apply assign_Meta_lookup.
  - by rewrite appendMeta_values, (right_id_L [] (++)).
  - intros vs Hvs.
    by rewrite appendMeta_entry, (right_id_L [] (++)), (entry_values _ _ _ Hvs).
  - intros Hnone.
    by rewrite appendMeta_entry, (right_id_L [] (++)), (entry_None_values _ _ Hnone).
  - intros ->. apply appendMeta_nil.
Qed.

(** ** Totality *)

(** C10, as amended. [Meta] is total on well-formed states under two
    preconditions: the current expression is not a nil pointer of one of
    the eleven struct types, whose cases read [e.Meta], and when it is a
    composite its [Attribute()] yields an attribute that is not nil. Then
    the call returns, whatever the kind of the current expression, and it
    neither dereferences nil nor stops in any other way; when the
    current expression is none of the eleven struct types and not a
    composite, what it returns is the state that [IncompatibleDSL]
    leaves. *)
Theorem Meta_total name value st :
  dsl.well_formed st →
  dsl.pointer_not_nil st →
  dsl.attribute_not_nil st →
  (∃ st', dsl.Meta name value st = Return st')
  ∧ (dsl.receiver st = None → dsl.Meta name value st = Return (dsl.incompatible st)).
Proof.
  intros Hwf Hptr Hnil.
  destruct (dsl.receiver st) as [r|] eqn:Hr.
  - destruct (Meta_receiver name value st r Hwf Hr) as (k & s & _ & ->).
    split; [by eexists|done].
  - revert Hptr Hnil Hr.
    unfold dsl.pointer_not_nil, dsl.attribute_not_nil, dsl.receiver.
    destruct (eval.Current (dsl.context st)) as [|e|[k|[att|]|]] eqn:Hcur;
      try done.
    + intros _ _ _. rewrite Meta_top by done. split; [by eexists|done].
    + destruct (well_formed_current st e Hwf Hcur) as [n Hn]. rewrite Hn.
      destruct n as [k s|[att|] rest|rest]; try done.
      intros _ _ _. rewrite (Meta_opaque _ _ _ _ _ Hcur Hn).
      split; [by eexists|done].
    + intros _ _ _. unfold dsl.Meta. rewrite Hcur. split; [by eexists|done].
Qed.

(** The precondition on the current pointer is needed: a nil pointer of
    any of the eleven struct types makes the call panic, in a state that
    is well formed and whatever [attribute_not_nil] says. *)
Lemma Meta_nil_struct_panics name value st k :
  eval.Current (dsl.context st) = eval.Nil (expr.NilStruct k) →
  dsl.Meta name value st = NilDereference.
Proof. unfold dsl.Meta. by intros ->. Qed.

(** ** Keys are opaque *)

Lemma swap_inj (k1 k2 : string) : Inj (=) (=) (dsl.swap k1 k2).
Proof. intros x y. unfold dsl.swap. repeat case_decide; congruence. Qed.

Lemma swap_l (k1 k2 : string) : dsl.swap k1 k2 k1 = k2.
Proof. unfold dsl.swap. by rewrite decide_True. Qed.

Lemma appendMeta_rename (f : string → string) `{!Inj (=) (=) f} meta name value :
  dsl.appendMeta (dsl.rename_meta f meta) (f name) value
  = dsl.rename_meta f (dsl.appendMeta meta name value).
Proof.
  unfold dsl.appendMeta, dsl.rename_meta, expr.index. destruct meta as [m|].
  - by rewrite kmap_insert, lookup_kmap.
  - by rewrite kmap_insert, kmap_empty, !lookup_empty.
Qed.

Lemma assign_Meta_rename (f : string → string) `{!Inj (=) (=) f} e k s name value st :
  dsl.assign_Meta e k
    (expr.mkStruct (dsl.rename_meta f (expr.Meta s)) (expr.fields s))
    (dsl.appendMeta (dsl.rename_meta f (expr.Meta s)) (f name) value)
    (dsl.rename f st)
  = dsl.rename f (dsl.assign_Meta e k s (dsl.appendMeta (expr.Meta s) name value) st).
Proof.
  unfold dsl.assign_Meta, dsl.rename; simpl.
  by rewrite fmap_insert, appendMeta_rename.
Qed.

(** [Meta] commutes with every injective renaming of the keys. *)
Lemma Meta_rename (f : string → string) `{!Inj (=) (=) f} name value st :
  dsl.Meta (f name) value (dsl.rename f st)
  = outcome_map (dsl.rename f) (dsl.Meta name value st).
Proof.
  unfold dsl.Meta. change (dsl.context (dsl.rename f st)) with (dsl.context st).
  change (dsl.heap (dsl.rename f st)) with (dsl.rename_node f <$> dsl.heap st).
  destruct (eval.Current (dsl.context st)) as [|e|[k|[att|]|]]; try done.
  - rewrite lookup_fmap.
    destruct (dsl.heap st !! e) as [[k s|[att|] rest|rest]|]; simpl; try done.
    + destruct k; simpl; f_equal; apply (assign_Meta_rename f).
    + rewrite lookup_fmap.
      destruct (dsl.heap st !! att) as [[[] s|att' rest'|rest']|]; simpl; try done.
      f_equal. apply (assign_Meta_rename f).
  - rewrite lookup_fmap.
    destruct (dsl.heap st !! att) as [[[] s|att' rest'|rest']|]; simpl; try done.
    f_equal. apply (assign_Meta_rename f).
Qed.

(** C7. The key is an opaque label. For any two keys, [Meta] with the
    second key, in the state where the two keys have exchanged their
    names in every metadata map, does what [Meta] with the first key does
    in the state as it is, up to that same exchange of names: the same
    outcome, and when it returns, the same state with the two names
    exchanged. No key, reserved or not, is treated apart. *)
Theorem Meta_key_opaque (k1 k2 : string) value st :
  dsl.Meta k2 value (dsl.rename (dsl.swap k1 k2) st)
  = outcome_map (dsl.rename (dsl.swap k1 k2)) (dsl.Meta k1 value st).
Proof.
  rewrite <-(swap_l k1 k2) at 1.
  apply (Meta_rename (dsl.swap k1 k2) (Inj0 := swap_inj k1 k2)).
Qed.

End MetaFacts.

(** ** Concrete runs *)

(** The end-to-end scenario of the specification: "x" with "1", then "x"
    with "2", on the same attribute. *)
Example Meta_x_1_then_2 :
  outcome_map (λ st, expr.entry (dsl.meta_at st 4) "x")
    (outcome_bind (dsl.Meta "x" ["1"] design.in_wrapper) (dsl.Meta "x" ["2"]))
  = Return (Some ["1"; "2"]).
Proof. reflexivity. Qed.

(** The example of the specification: ["a"] then ["b"; "c"] under "k" on
    a method that had no metadata. *)
Example Meta_a_then_b_c :
  outcome_map (λ st, dsl.meta_at st 2)
    (outcome_bind (dsl.Meta "k" ["a"] design.in_method) (dsl.Meta "k" ["b"; "c"]))
  = Return (Some {[ "k" := ["a"; "b"; "c"] ]}).
Proof. by vm_compute. Qed.

(** Values are not deduplicated, and the values already there stay in
    front. *)
Example Meta_keeps_duplicates :
  outcome_map (λ st, expr.entry (dsl.meta_at st 1) "k")
    (dsl.Meta "k" ["a"; "a"] design.in_service)
  = Return (Some ["a"; "a"; "a"]).
Proof. reflexivity. Qed.

(** A reserved key is stored like any other. *)
Example Meta_reserved_key :
  outcome_map (λ st, (expr.entry (dsl.meta_at st 1) "openapi:generate",
                      expr.entry (dsl.meta_at st 1) "k"))
    (dsl.Meta "openapi:generate" ["false"] design.in_service)
  = Return (Some ["false"], Some ["a"]).
Proof. reflexivity. Qed.

(** A composite whose [Attribute()] is nil: the assignment [att.Meta = ...]
    panics. *)
Example Meta_nil_attribute :
  dsl.Meta "k" ["a"] design.in_nothing = NilDereference.
Proof. reflexivity. Qed.

Example in_nothing_well_formed :
  bool_decide (dsl.well_formed design.in_nothing) = true.
Proof. by vm_compute. Qed.

Lemma design_well_formed (stack : list loc) :
  Forall (λ e, e ∈ [1; 2; 3; 4; 5; 6]) stack →
  dsl.well_formed (design.block stack).
Proof.
  intros Hstack. split.
  - simpl. apply Forall_fmap. eapply Forall_impl; [exact Hstack|].
    intros e He. simpl.
    repeat (apply elem_of_cons in He as [->|He]; [done|]).
    by apply elem_of_nil in He.
  - apply (bool_decide_unpack _). by vm_compute.
Qed.

(** Two calls in the block of the method "add", which has no metadata
    yet. *)
Lemma Meta_twice_appends_witness :
  ∃ k s st1 s1 st2 s2,
    dsl.heap design.in_method !! (2 : loc) = Some (expr.Struct k s)
    ∧ dsl.Meta "k" ["a"] design.in_method = Return st1
    ∧ dsl.receiver st1 = Some 2
    ∧ dsl.heap st1 !! (2 : loc) = Some (expr.Struct k s1)
    ∧ expr.entry (expr.Meta s1) "k" = Some (expr.values (expr.Meta s) "k" ++ ["a"])
    ∧ dsl.Meta "k" ["b"; "c"] st1 = Return st2
    ∧ dsl.receiver st2 = Some 2
    ∧ dsl.heap st2 !! (2 : loc) = Some (expr.Struct k s2)
    ∧ expr.values (expr.Meta s2) "k" = expr.values (expr.Meta s1) "k" ++ ["b"; "c"]
    ∧ expr.entry (expr.Meta s2) "k"
      = Some (expr.values (expr.Meta s) "k" ++ ["a"] ++ ["b"; "c"]).
Proof.
  apply (Meta_twice_appends "k" ["a"] ["b"; "c"] design.in_method 2).
  - apply design_well_formed. by repeat constructor.
  - reflexivity.
Defined.

(** In the wrapper, a composite that holds the attribute at location 4,
    the values land in the attribute and the wrapper node is as it was. *)
Lemma Meta_composite_delegates_witness :
  ∃ st' s',
    dsl.Meta "k" ["a"] design.in_wrapper = Return st'
    ∧ dsl.heap st' !! (4 : loc) = Some (expr.Struct expr.AttributeExpr s')
    ∧ expr.Meta s' = dsl.appendMeta None "k" ["a"]
    ∧ expr.entry (expr.Meta s') "k" = Some ["a"]
    ∧ expr.fields s' = "a"
    ∧ dsl.heap st' !! (3 : loc) = Some (expr.Composite (Some 4) "wrapper")
    ∧ (∀ e', e' ≠ 4 → dsl.heap st' !! e' = design.nodes !! e')
    ∧ dom (dsl.heap st') = dom design.nodes
    ∧ dsl.context st' = dsl.context design.in_wrapper.
Proof.
  exact (Meta_composite_delegates "k" ["a"] design.in_wrapper 3 4 "wrapper"
           (expr.mkStruct None "a") eq_refl eq_refl eq_refl).
Defined.

Lemma Meta_incompatible_kind_witness :
  ∃ st',
    dsl.Meta "k" ["a"] design.in_view = Return st'
    ∧ dsl.heap st' = design.nodes
    ∧ eval.Stack (dsl.context st') = [eval.Ref 1; eval.Ref 5]
    ∧ eval.Errors (dsl.context st')
      = [ {| eval.class := eval.IncompatibleContext; eval.origin := eval.Ref 5 |} ].
Proof.
  exact (Meta_incompatible_kind "k" ["a"] design.in_view 5 "view" eq_refl eq_refl).
Defined.

Lemma Meta_data_model_kinds_witness :
  ∃ st' s',
    dsl.Meta "k" ["b"; "c"] design.in_service = Return st'
    ∧ dsl.heap st' !! (1 : loc) = Some (expr.Struct expr.ServiceExpr s')
    ∧ expr.Meta s' = dsl.appendMeta (Some {[ "k" := ["a"] ]}) "k" ["b"; "c"]
    ∧ expr.entry (expr.Meta s') "k" = Some ["a"; "b"; "c"]
    ∧ expr.fields s' = "calc"
    ∧ eval.Errors (dsl.context st') = []
    ∧ dsl.context st' = dsl.context design.in_service.
Proof.
  refine (Meta_data_model_kinds "k" ["b"; "c"] design.in_service 1 expr.ServiceExpr
            (expr.mkStruct (Some {[ "k" := ["a"] ]}) "calc") _ eq_refl eq_refl).
  unfold dsl.data_model_kinds. do 2 apply list_elem_of_further. apply list_elem_of_here.
Defined.

Lemma Meta_creates_map_witness :
  ∃ st',
    dsl.Meta "k" ["a"; "b"] design.in_method = Return st'
    ∧ dsl.heap st' !! (2 : loc)
      = Some (expr.Struct expr.MethodExpr
                (expr.mkStruct (Some {[ "k" := ["a"; "b"] ]}) "add")).
Proof.
  exact (Meta_creates_map "k" ["a"; "b"] design.in_method 2 expr.MethodExpr
           (expr.mkStruct None "add") eq_refl eq_refl eq_refl).
Defined.

Lemma Meta_outside_any_context_witness :
  eval.Current (dsl.context design.top_level) = eval.TopExpr
  ∧ ∃ st',
      dsl.Meta "k" ["a"] design.top_level = Return st'
      ∧ dsl.heap st' = design.nodes
      ∧ eval.Stack (dsl.context st') = []
      ∧ eval.Errors (dsl.context st')
        = [ {| eval.class := eval.IncompatibleContext; eval.origin := eval.TopExpr |} ].
Proof.
  exact (Meta_outside_any_context "k" ["a"] design.top_level eq_refl).
Defined.

Lemma Meta_frame_witness :
  ∃ k s s' st',
    dsl.heap design.in_service !! (1 : loc) = Some (expr.Struct k s)
    ∧ dsl.Meta "other" ["x"] design.in_service = Return st'
    ∧ dsl.heap st' !! (1 : loc) = Some (expr.Struct k s')
    ∧ (∀ name', name' ≠ "other" →
         expr.entry (expr.Meta s') name' = expr.entry (expr.Meta s) name')
    ∧ expr.fields s' = expr.fields s
    ∧ (∀ e', e' ≠ 1 → dsl.heap st' !! e' = dsl.heap design.in_service !! e')
    ∧ dsl.context st' = dsl.context design.in_service.
Proof.
  apply (Meta_frame "other" ["x"] design.in_service 1).
  - apply design_well_formed. by repeat constructor.
  - reflexivity.
Defined.

Lemma Meta_no_values_witness :
  ∃ k s s' st',
    dsl.heap design.in_wrapper !! (4 : loc) = Some (expr.Struct k s)
    ∧ dsl.Meta "k" [] design.in_wrapper = Return st'
    ∧ dsl.heap st' !! (4 : loc) = Some (expr.Struct k s')
    ∧ dsl.context st' = dsl.context design.in_wrapper
    ∧ expr.values (expr.Meta s') "k" = expr.values (expr.Meta s) "k"
    ∧ (∀ vs, expr.entry (expr.Meta s) "k" = Some vs →
             expr.entry (expr.Meta s') "k" = Some vs)
    ∧ (expr.entry (expr.Meta s) "k" = None →
       expr.entry (expr.Meta s') "k" = Some [])
    ∧ (expr.Meta s = None → expr.Meta s' = Some {[ "k" := [] ]}).
Proof.
  apply (Meta_no_values "k" design.in_wrapper 4).
  - apply design_well_formed. by repeat constructor.
  - reflexivity.
Defined.

(** In the wrapper, a composite whose [Attribute()] is the attribute at
    location 4: both preconditions hold and the call returns. *)
Lemma Meta_total_witness :
  (∃ st', dsl.Meta "k" ["a"] design.in_wrapper = Return st')
  ∧ (dsl.receiver design.in_wrapper = None →
     dsl.Meta "k" ["a"] design.in_wrapper
     = Return (dsl.incompatible design.in_wrapper)).
Proof.
  apply (Meta_total "k" ["a"] design.in_wrapper).
  - apply design_well_formed. by repeat constructor.
  - exact I.
  - exact I.
Defined.

(** C10 as it was stated fails: with a nil [*expr.APIExpr] as the current
    expression the state is well formed and the precondition on
    [Attribute()] holds, since the current expression is no composite,
    and the call panics on [e.Meta] instead of returning. *)
Lemma Meta_total_nil_pointer_counterexample :
  dsl.well_formed design.in_nil_api
  ∧ dsl.attribute_not_nil design.in_nil_api = true
  ∧ dsl.Meta "k" ["a"] design.in_nil_api = NilDereference
  ∧ ¬ ∃ st', dsl.Meta "k" ["a"] design.in_nil_api = Return st'.
Proof.
  split_and!.
  - split.
    + by repeat constructor.
    + apply (bool_decide_unpack _). by vm_compute.
  - reflexivity.
  - reflexivity.
  - by intros [st' Hst'].
Qed.

(** * Laws of [Meta] calls *)

Section MetaLaws.

Context {Fields : Type}.
Implicit Types (st : dsl.State Fields) (s : expr.StructExpr Fields).
Implicit Types (name : string) (value : list string) (r e : loc).
Implicit Types (meta : expr.MetaExpr) (k : expr.Kind).
Implicit Types (calls : list (string * list string)).

(** ** [Meta] through its target *)

Lemma Meta_target name value st :
  dsl.Meta name value st
  = match dsl.target st with
    | Return (Some (r, k, s)) =>
        Return (dsl.assign_Meta r k s (dsl.appendMeta (expr.Meta s) name value) st)
    | Return None => Return (dsl.incompatible st)
    | NilDereference => NilDereference
    | IllFormed => IllFormed
    end.
Proof.
  unfold dsl.Meta, dsl.target.
  destruct (eval.Current (dsl.context st)) as [|e|[k|[att|]|]]; try done.
  - destruct (dsl.heap st !! e) as [[[] s|[att|] rest|rest]|]; try done.
    by destruct (dsl.heap st !! att) as [[[] s|att' rest'|rest']|].
  - by destruct (dsl.heap st !! att) as [[[] s|att' rest'|rest']|].
Qed.

Lemma target_lookup st r k s :
  dsl.target st = Return (Some (r, k, s)) →
  dsl.heap st !! r = Some (expr.Struct k s) ∧ dsl.receiver st = Some r.
Proof.
  unfold dsl.target, dsl.receiver.
  destruct (eval.Current (dsl.context st)) as [|e|[k0|[att|]|]]; try done.
  - destruct (dsl.heap st !! e) as [[k' s'|[att|] rest|rest]|] eqn:He; try done.
    + by intros [= <- <- <-].
    + destruct (dsl.heap st !! att) as [[[] s'|att' rest'|rest']|] eqn:Hatt;
        try done.
      by intros [= <- <- <-].
  - destruct (dsl.heap st !! att) as [[[] s'|att' rest'|rest']|] eqn:Hatt; try done.
    by intros [= <- <- <-].
Qed.

Lemma target_assign_Meta st r k s meta :
  dsl.target st = Return (Some (r, k, s)) →
  dsl.target (dsl.assign_Meta r k s meta st)
  = Return (Some (r, k, expr.mkStruct meta (expr.fields s))).
Proof.
  unfold dsl.target. rewrite assign_Meta_context.
  destruct (eval.Current (dsl.context st)) as [|e|[k0|[att|]|]]; try done.
  - destruct (dsl.heap st !! e) as [[k' s'|[att|] rest|rest]|] eqn:He; try done.
    + intros [= <- <- <-]. by rewrite assign_Meta_lookup.
    + destruct (dsl.heap st !! att) as [[[] s'|att' rest'|rest']|] eqn:Hatt;
        try done.
      intros [= <- <- <-].
      assert (e ≠ att) as Hne by (intros ->; congruence).
      by rewrite assign_Meta_lookup_ne, He, assign_Meta_lookup.
  - destruct (dsl.heap st !! att) as [[[] s'|att' rest'|rest']|] eqn:Hatt; try done.
    intros [= <- <- <-]. by rewrite assign_Meta_lookup.
Qed.

Lemma target_incompatible st :
  dsl.target (dsl.incompatible st) = dsl.target st.
Proof. reflexivity. Qed.

Lemma target_None_receiver st :
  dsl.target st = Return None → dsl.receiver st = None.
Proof.
  unfold dsl.target, dsl.receiver.
  destruct (eval.Current (dsl.context st)) as [|e|[k0|[att|]|]]; try done.
  - destruct (dsl.heap st !! e) as [[k' s'|[att|] rest|rest]|]; try done.
    by destruct (dsl.heap st !! att) as [[[] s'|att' rest'|rest']|].
  - by destruct (dsl.heap st !! att) as [[[] s'|att' rest'|rest']|].
Qed.

Lemma receiver_target st r :
  dsl.well_formed st →
  dsl.receiver st = Some r →
  ∃ k s, dsl.target st = Return (Some (r, k, s)).
Proof.
  intros Hwf. unfold dsl.receiver, dsl.target.
  destruct (eval.Current (dsl.context st)) as [|e|[k0|att|]] eqn:Hcur; try done.
  - destruct (dsl.heap st !! e) as [[k s|att rest|rest]|] eqn:He; try done.
    + intros [= <-]. by exists k, s.
    + intros ->. destruct (well_formed_attribute _ _ _ _ Hwf He) as [s ->].
      by exists expr.AttributeExpr, s.
  - intros ->. destruct (well_formed_nil_attribute _ _ Hwf Hcur) as [s ->].
    by exists expr.AttributeExpr, s.
Qed.

(** ** Assignments to the same field *)

Lemma assign_Meta_twice r k s s' meta meta' st :
  expr.fields s' = expr.fields s →
  dsl.assign_Meta r k s' meta' (dsl.assign_Meta r k s meta st)
  = dsl.assign_Meta r k s meta' st.
Proof.
  intros Hf. unfold dsl.assign_Meta; simpl. by rewrite insert_insert_eq, Hf.
Qed.

Lemma assign_Meta_id r k s st :
  dsl.heap st !! r = Some (expr.Struct k s) →
  dsl.assign_Meta r k s (expr.Meta s) st = st.
Proof.
  intros Hs. destruct st as [h c], s as [m f]. unfold dsl.assign_Meta; simpl in *.
  f_equal. by apply insert_id.
Qed.

Lemma assign_Meta_inj r k s meta meta' st :
  dsl.assign_Meta r k s meta st = dsl.assign_Meta r k s meta' st → meta = meta'.
Proof.
  intros Heq. apply (f_equal (λ st', dsl.heap st' !! r)) in Heq.
  rewrite !assign_Meta_lookup in Heq. congruence.
Qed.

(** ** The closure on the same key and on two keys *)

Lemma appendMeta_same_key meta name (v1 v2 : list string) :
  dsl.appendMeta (dsl.appendMeta meta name v1) name v2
  = dsl.appendMeta meta name (v1 ++ v2).
Proof.
  unfold dsl.appendMeta, expr.index.
  by rewrite lookup_insert_eq, insert_insert_eq, (assoc_L (++)).
Qed.

Lemma appendMeta_other_key meta (k1 k2 : string) (v1 v2 : list string) :
  k1 ≠ k2 →
  dsl.appendMeta (dsl.appendMeta meta k1 v1) k2 v2
  = dsl.appendMeta (dsl.appendMeta meta k2 v2) k1 v1.
Proof.
  intros Hne. unfold dsl.appendMeta, expr.index.
  rewrite !lookup_insert_ne by done. f_equal. by apply insert_insert_ne.
Qed.

Lemma appendMeta_values_ne meta name name' value :
  name ≠ name' →
  expr.values (dsl.appendMeta meta name value) name' = expr.values meta name'.
Proof.
  intros Hne. unfold dsl.appendMeta, expr.values, expr.index.
  rewrite lookup_insert_ne by done. destruct meta; [done|]. by rewrite lookup_empty.
Qed.

(** ** Two calls *)

(** X1. In a context where [Meta] has a receiver, two calls with the same
    key, one after the other, are one call with the values of the first
    followed by the values of the second: the same outcome and the same
    state. *)
Theorem Meta_same_key_merges name (v1 v2 : list string) st :
  is_Some (dsl.receiver st) →
  outcome_bind (dsl.Meta name v1 st) (dsl.Meta name v2)
  = dsl.Meta name (v1 ++ v2) st.
Proof.
  intros Hr. rewrite !(Meta_target _ _ st).
  destruct (dsl.target st) as [[[[r k] s]|]| |] eqn:Ht; simpl; try done.
  - rewrite Meta_target, (target_assign_Meta _ _ _ _ _ Ht). cbn [expr.Meta].
    by rewrite assign_Meta_twice, appendMeta_same_key.
  - apply target_None_receiver in Ht. rewrite Ht in Hr. by destruct Hr.
Qed.

(** X2. Two calls with different keys can be exchanged: in every state,
    the one after the other and the other after the one end the same
    way, and when they return, in the same state. *)
Theorem Meta_other_key_commutes (k1 k2 : string) (v1 v2 : list string) st :
  k1 ≠ k2 →
  outcome_bind (dsl.Meta k1 v1 st) (dsl.Meta k2 v2)
  = outcome_bind (dsl.Meta k2 v2 st) (dsl.Meta k1 v1).
Proof.
  intros Hne. rewrite !(Meta_target _ _ st).
  destruct (dsl.target st) as [[[[r k] s]|]| |] eqn:Ht; simpl; try done.
  - rewrite !Meta_target, !(target_assign_Meta _ _ _ _ _ Ht). cbn [expr.Meta].
    by rewrite !assign_Meta_twice, (appendMeta_other_key _ k1 k2).
  - by rewrite !Meta_target, target_incompatible, Ht.
Qed.

(** ** A call with no value *)

(** X3. In a context where [Meta] has a receiver, a call with a key and no
    value leaves the whole state as it is exactly when the receiver
    already has an entry for the key; when it has none, the call changes
    the state, since it makes the entry. *)
Theorem Meta_no_values_noop name st r :
  dsl.well_formed st →
  dsl.receiver st = Some r →
  dsl.Meta name [] st = Return st
  ↔ is_Some (expr.entry (dsl.meta_at st r) name).
Proof.
  intros Hwf Hr. destruct (receiver_target st r Hwf Hr) as (k & s & Ht).
  destruct (target_lookup _ _ _ _ Ht) as [Hs _].
  rewrite Meta_target, Ht. unfold dsl.meta_at. rewrite Hs. split.
  - intros [= Heq]. rewrite <-(assign_Meta_id r k s st Hs) in Heq at 2.
    apply assign_Meta_inj in Heq. rewrite <-Heq, appendMeta_entry. by eexists.
  - intros [vs Hvs]. f_equal. rewrite <-(assign_Meta_id r k s st Hs) at 2. f_equal.
    revert Hvs. unfold dsl.appendMeta, expr.entry, expr.index.
    destruct (expr.Meta s) as [m|]; [|done]. intros Hvs. f_equal.
    apply insert_id. by rewrite Hvs, (right_id_L [] (++)).
Qed.

(** ** The receiver decides *)

(** X4. What a call does to the expressions depends on the heap and on
    the receiver only. Two states with the same heap and the same
    receiver, whatever their stacks and the errors they hold (the
    attribute may be the current expression in one and be reached through
    a composite in the other), both return, with the same heap. *)
Theorem Meta_receiver_decides name value st1 st2 r :
  dsl.well_formed st1 →
  dsl.well_formed st2 →
  dsl.heap st1 = dsl.heap st2 →
  dsl.receiver st1 = Some r →
  dsl.receiver st2 = Some r →
  ∃ st1' st2',
    dsl.Meta name value st1 = Return st1'
    ∧ dsl.Meta name value st2 = Return st2'
    ∧ dsl.heap st1' = dsl.heap st2'.
Proof.
  intros Hwf1 Hwf2 Hheap Hr1 Hr2.
  destruct (Meta_receiver name value st1 r Hwf1 Hr1) as (k1 & s1 & Hs1 & ->).
  destruct (Meta_receiver name value st2 r Hwf2 Hr2) as (k2 & s2 & Hs2 & ->).
  rewrite Hheap, Hs2 in Hs1. injection Hs1 as <- <-.
  eexists _, _. split; [done|]. split; [done|].
  unfold dsl.assign_Meta; simpl. by rewrite Hheap.
Qed.

(** ** Blocks of calls *)

(** The map a block of calls leaves in a [Meta] field: the closure
    applied call after call. *)
Local Abbreviation folded meta calls :=
  (foldl (λ m (c : string * list string), dsl.appendMeta m c.1 c.2) meta calls).

Lemma Meta_calls_target calls : ∀ st r k s,
  dsl.target st = Return (Some (r, k, s)) →
  dsl.Meta_calls calls st
  = Return (dsl.assign_Meta r k s (folded (expr.Meta s) calls) st).
Proof.
  induction calls as [|[name value] calls IH]; intros st r k s Ht; simpl.
  - destruct (target_lookup _ _ _ _ Ht) as [Hs _]. by rewrite assign_Meta_id.
  - rewrite Meta_target, Ht. simpl.
    rewrite (IH _ r k _ (target_assign_Meta _ _ _ _ _ Ht)). cbn [expr.Meta].
    by rewrite assign_Meta_twice.
Qed.

Lemma values_entry meta name :
  expr.values meta name = default [] (expr.entry meta name).
Proof. by destruct meta. Qed.

Lemma entry_folded calls : ∀ meta (key : string),
  expr.entry (folded meta calls) key
  = match filter (λ c, c.1 = key) calls with
    | [] => expr.entry meta key
    | c :: cs => Some (expr.values meta key ++ concat (c :: cs).*2)
    end.
Proof.
  induction calls as [|[name value] calls IH]; intros meta key; [done|].
  cbn [foldl fst snd]. rewrite IH. destruct (decide (name = key)) as [->|Hne].
  - rewrite filter_cons_True by done. rewrite appendMeta_values, appendMeta_entry.
    destruct (filter _ calls) as [|c cs]; simpl.
    + by rewrite !(right_id_L [] (++)).
    + by rewrite <-(assoc_L (++)).
  - rewrite filter_cons_False by done.
    by rewrite appendMeta_values_ne, appendMeta_entry_ne.
Qed.

Lemma folded_is_Some calls : ∀ meta,
  is_Some meta → is_Some (folded meta calls).
Proof.
  induction calls as [|[name value] calls IH]; intros meta Hmeta; [done|].
  apply IH, appendMeta_is_Some.
Qed.

Lemma folded_ext calls1 calls2 meta :
  (∀ key : string,
     filter (λ c, c.1 = key) calls1 = filter (λ c, c.1 = key) calls2) →
  folded meta calls1 = folded meta calls2.
Proof.
  intros Hsame.
  destruct calls1 as [|c1 calls1], calls2 as [|c2 calls2]; [done| | |].
  - specialize (Hsame c2.1). by rewrite filter_cons_True in Hsame.
  - specialize (Hsame c1.1). by rewrite filter_cons_True in Hsame.
  - pose proof (entry_folded (c1 :: calls1) meta) as H1.
    pose proof (entry_folded (c2 :: calls2) meta) as H2.
    destruct (folded_is_Some calls1 (dsl.appendMeta meta c1.1 c1.2)
                (appendMeta_is_Some _ _ _)) as [m1 Hm1].
    destruct (folded_is_Some calls2 (dsl.appendMeta meta c2.1 c2.2)
                (appendMeta_is_Some _ _ _)) as [m2 Hm2].
    cbn [foldl] in *. rewrite Hm1 in H1 |- *. rewrite Hm2 in H2 |- *.
    f_equal. apply map_eq. intros key.
    specialize (H1 key). specialize (H2 key). rewrite Hsame in H1.
    simpl in H1, H2. congruence.
Qed.

(** X6. A block of [Meta] calls in a context that has a receiver returns,
    with the same receiver, and for every key: when no call of the block
    has the key, the entry of the key is what it was; otherwise the key
    holds the values it had, followed by the values of the calls that
    have the key, call after call in the order of the block, whatever
    calls with other keys stand in between. *)
Theorem Meta_calls_entries calls (key : string) st r :
  dsl.well_formed st →
  dsl.receiver st = Some r →
  ∃ st',
    dsl.Meta_calls calls st = Return st'
    ∧ dsl.receiver st' = Some r
    ∧ expr.entry (dsl.meta_at st' r) key
      = match filter (λ c, c.1 = key) calls with
        | [] => expr.entry (dsl.meta_at st r) key
        | c :: cs =>
            Some (expr.values (dsl.meta_at st r) key ++ concat (c :: cs).*2)
        end
    ∧ expr.values (dsl.meta_at st' r) key
      = expr.values (dsl.meta_at st r) key
        ++ concat (filter (λ c, c.1 = key) calls).*2.
Proof.
  intros Hwf Hr. destruct (receiver_target st r Hwf Hr) as (k & s & Ht).
  destruct (target_lookup _ _ _ _ Ht) as [Hs _].
  eexists. split; [by apply Meta_calls_target|].
  split; [by rewrite receiver_assign_Meta|].
  unfold dsl.meta_at. rewrite assign_Meta_lookup, Hs. cbn [expr.Meta].
  split; [apply entry_folded|].
  rewrite (values_entry (folded _ _)), entry_folded.
  destruct (filter _ calls) as [|c cs]; simpl.
  - by rewrite (right_id_L [] (++)), values_entry.
  - done.
Qed.

(** X7. In a context that has a receiver, only the order of the calls
    that share a key matters: two blocks that have, for every key, the
    same calls with that key in the same order, return, and return the
    same state. *)
Theorem Meta_calls_reorder calls1 calls2 st r :
  dsl.well_formed st →
  dsl.receiver st = Some r →
  (∀ key : string,
     filter (λ c, c.1 = key) calls1 = filter (λ c, c.1 = key) calls2) →
  ∃ st',
    dsl.Meta_calls calls1 st = Return st'
    ∧ dsl.Meta_calls calls2 st = Return st'.
Proof.
  intros Hwf Hr Hsame. destruct (receiver_target st r Hwf Hr) as (k & s & Ht).
  eexists. split; [by apply Meta_calls_target|].
  by rewrite (Meta_calls_target calls2 _ _ _ _ Ht), (folded_ext calls1 calls2).
Qed.

End MetaLaws.

(** ** Concrete runs of the laws *)

Lemma Meta_same_key_merges_witness :
  outcome_bind (dsl.Meta "k" ["a"] design.in_method) (dsl.Meta "k" ["b"; "c"])
  = dsl.Meta "k" (["a"] ++ ["b"; "c"]) design.in_method.
Proof.
  apply (Meta_same_key_merges "k" ["a"] ["b"; "c"] design.in_method).
  exists 2. reflexivity.
Defined.

(** The two struct tags of the documentation, in either order. *)
Lemma Meta_other_key_commutes_witness :
  outcome_bind (dsl.Meta "struct:tag:json" ["SSN,omitempty"] design.in_wrapper)
    (dsl.Meta "struct:tag:xml" ["SSN,omitempty"])
  = outcome_bind (dsl.Meta "struct:tag:xml" ["SSN,omitempty"] design.in_wrapper)
      (dsl.Meta "struct:tag:json" ["SSN,omitempty"]).
Proof.
  apply (Meta_other_key_commutes "struct:tag:json" "struct:tag:xml").
  discriminate.
Defined.

Lemma Meta_no_values_noop_witness :
  dsl.Meta "k" [] design.in_service = Return design.in_service
  ↔ is_Some (expr.entry (dsl.meta_at design.in_service 1) "k").
Proof.
  apply (Meta_no_values_noop "k" design.in_service 1).
  - apply design_well_formed. by repeat constructor.
  - reflexivity.
Defined.

(** The attribute at location 4, in its own block and through the
    wrapper. *)
Lemma Meta_receiver_decides_witness :
  ∃ st1' st2',
    dsl.Meta "k" ["a"] design.in_wrapper = Return st1'
    ∧ dsl.Meta "k" ["a"] (design.block [1; 2; 4]) = Return st2'
    ∧ dsl.heap st1' = dsl.heap st2'.
Proof.
  apply (Meta_receiver_decides "k" ["a"] design.in_wrapper (design.block [1; 2; 4]) 4).
  - apply design_well_formed. by repeat constructor.
  - apply design_well_formed. by repeat constructor.
  - reflexivity.
  - reflexivity.
  - reflexivity.
Defined.

Lemma Meta_calls_entries_witness :
  ∃ st',
    dsl.Meta_calls [("k", ["b"]); ("x", ["1"]); ("k", ["c"; "b"])] design.in_service
    = Return st'
    ∧ dsl.receiver st' = Some 1
    ∧ expr.entry (dsl.meta_at st' 1) "k" = Some ["a"; "b"; "c"; "b"]
    ∧ expr.values (dsl.meta_at st' 1) "k" = ["a"; "b"; "c"; "b"].
Proof.
  apply (Meta_calls_entries [("k", ["b"]); ("x", ["1"]); ("k", ["c"; "b"])] "k"
           design.in_service 1).
  - apply design_well_formed. by repeat constructor.
  - reflexivity.
Defined.

Lemma Meta_calls_reorder_witness :
  ∃ st',
    dsl.Meta_calls [("k", ["b"]); ("x", ["1"]); ("k", ["c"])] design.in_service
    = Return st'
    ∧ dsl.Meta_calls [("x", ["1"]); ("k", ["b"]); ("k", ["c"])] design.in_service
      = Return st'.
Proof.
  apply (Meta_calls_reorder [("k", ["b"]); ("x", ["1"]); ("k", ["c"])]
           [("x", ["1"]); ("k", ["b"]); ("k", ["c"])] design.in_service 1).
  - apply design_well_formed. by repeat constructor.
  - reflexivity.
  - intros key. rewrite !filter_cons, !filter_nil. simpl.
    repeat case_decide; simplify_eq; done.
Defined.
